(** * Garbled boolean circuits: the fast-circuit wrapper of ScapiCpp

    A shallow embedding of
    [ScapiCpp/include/circuits/FastGarbledBooleanCircuit.hpp]:
    the garbled tables holder, the circuit creation values and the
    wrapper class [ScNativeGarbledBooleanCircuitNoFixedKey] around the
    native garbling object.  The header gives the bodies of the holder,
    of [setInputs], [verifiedTranslate] and of the index queries; the
    bodies of [garble], [compute] and [translate] are compiled elsewhere
    and are modelled here from the specification, for the free-XOR
    construction it describes, over an arbitrary pseudorandom generator
    and pseudorandom function. *)

From Stdlib Require Import NArith ZArith List Bool Lia.
From Stdlib Require Import Strings.Byte.
Import ListNotations.

Set Implicit Arguments.

(** ** Values of the C++ program *)

(** [byte] is [unsigned char]. *)
Definition byte : Type := Byte.byte.

(** [int] is modelled by [Z]. *)
Definition int : Type := Z.

(** A [block] is one 128-bit wire key (SCAPI_NATIVE_KEY_SIZE bytes),
    an unsigned integer whose wrap-around is [trunc]. *)
Definition block : Type := N.

(** A [byte*] that may be [NULL]. *)
Inductive byte_ptr : Type :=
| NULL : byte_ptr
| Buf  : list byte -> byte_ptr.

(** The failure conditions of the circuit engine. *)
Inductive condition : Type :=
| NotAllInputsSet
| NoSuchParty
| InvalidKey
| InvalidArgument
| CheatAttempt.

(** What a call does: it returns a value, throws, or has undefined
    behaviour (a raw array read outside its bounds). *)
Inductive outcome (A : Type) : Type :=
| Returned  : A -> outcome A
| Thrown    : condition -> outcome A
| Undefined : outcome A.

Arguments Thrown {A} _.
Arguments Undefined {A}.

Definition bind {A B : Type} (o : outcome A) (k : A -> outcome B) : outcome B :=
  match o with
  | Returned a => k a
  | Thrown c => Thrown c
  | Undefined => Undefined
  end.

Notation "x <- o ;; k" := (bind o (fun x => k))
  (at level 61, o at next level, right associativity).

(** [a[i]] on an [int*] whose extent is [a]. *)
Definition int_array_read (a : list int) (i : int) : outcome int :=
  if ((0 <=? i) && (i <? Z.of_nat (length a)))%Z
  then Returned (nth (Z.to_nat i) a 0%Z)
  else Undefined.

(** ** JustGarbledGarbledTablesHolder *)

Record JustGarbledGarbledTablesHolder : Type := mkHolder {
  holder_garbledTables : byte_ptr;
  holder_size : int
}.

(** The constructor [JustGarbledGarbledTablesHolder(garbledTables, size)]. *)
Definition newHolder (garbledTables : byte_ptr) (size : int)
  : JustGarbledGarbledTablesHolder :=
  mkHolder garbledTables size.

(** [setGarbledTables(garbledTables, size)] of the holder. *)
Definition holder_setGarbledTables (h : JustGarbledGarbledTablesHolder)
    (garbledTables : byte_ptr) (size : int) : JustGarbledGarbledTablesHolder :=
  mkHolder garbledTables size.

(** [toDoubleByteArray()]: a fresh one-element array whose location 0 is
    the tables pointer. *)
Definition toDoubleByteArray (h : JustGarbledGarbledTablesHolder) : list byte_ptr :=
  [holder_garbledTables h].

(** [getArraySize(arrIndex)]. *)
Definition getArraySize (h : JustGarbledGarbledTablesHolder) (arrIndex : int)
  : outcome int :=
  if (arrIndex =? 0)%Z then Returned (holder_size h)
  else Thrown InvalidArgument.

(** ** FastCircuitCreationValues *)

Record FastCircuitCreationValues : Type := mkValues {
  getAllInputWireValues  : byte_ptr;
  getAllOutputWireValues : byte_ptr;
  values_getTranslationTable : byte_ptr
}.

(** The default constructor leaves the three pointers [NULL]. *)
Definition emptyValues : FastCircuitCreationValues := mkValues NULL NULL NULL.

(** ** Circuit description *)

Definition wire : Type := nat.

Inductive GateType : Type := AND | OR | XOR | NOT.

Record Gate : Type := mkGate {
  gateType   : GateType;
  gateInputs : list wire;
  gateOutput : wire
}.

(** Gate list, per-party input wire indices, output wire indices. *)
Record CircuitDescription : Type := mkDescription {
  gates       : list Gate;
  partyInputs : list (list wire);
  outputWires : list wire
}.

Definition inputWires (cd : CircuitDescription) : list wire :=
  concat (partyInputs cd).

(** ** The native garbling object behind [garbledCircuitPtr] *)

(** Modelled from the spec: the class [GarbledBooleanCircuit] of the
    native library is not part of the header; its state is the circuit
    description, the garbled tables (rows of all table gates, in gate
    order) and the translation table (one byte per output wire). *)
Record GarbledBooleanCircuit : Type := mkNative {
  description      : CircuitDescription;
  garbledTables    : list block;
  translationTable : list byte
}.

(** Modelled from the spec: the queries of the native object that the
    wrapper calls (party count, per-party input counts, input and output
    wire indices, output count). *)
Definition native_getNumberOfParties (c : GarbledBooleanCircuit) : int :=
  Z.of_nat (length (partyInputs (description c))).

Definition native_getNumOfInputsForEachParty (c : GarbledBooleanCircuit) : list int :=
  map (fun ws => Z.of_nat (length ws)) (partyInputs (description c)).

Definition native_getInputIndices (c : GarbledBooleanCircuit) : list wire :=
  inputWires (description c).

Definition native_getOutputIndices (c : GarbledBooleanCircuit) : list wire :=
  outputWires (description c).

Definition native_getNumberOfOutputs (c : GarbledBooleanCircuit) : nat :=
  length (outputWires (description c)).

(** ** ScNativeGarbledBooleanCircuitNoFixedKey *)

Definition SCAPI_NATIVE_KEY_SIZE : nat := 16.

Record ScNativeGarbledBooleanCircuitNoFixedKey : Type := mkCircuit {
  garbledCircuitPtr : GarbledBooleanCircuit;
  garbledInputs     : list byte
}.

(** [setInputs(garbledInputs)]: [this->garbledInputs = garbledInputs]. *)
Definition setInputs (c : ScNativeGarbledBooleanCircuitNoFixedKey)
    (inputs : list byte) : outcome ScNativeGarbledBooleanCircuitNoFixedKey :=
  Returned (mkCircuit (garbledCircuitPtr c) inputs).

(** [verifiedTranslate(garbledOutput, allOutputWireValues)]: the body is
    [return NULL]. *)
Definition verifiedTranslate (c : ScNativeGarbledBooleanCircuitNoFixedKey)
    (garbledOutput allOutputWireValues : list byte) : outcome byte_ptr :=
  Returned NULL.

Definition getTranslationTable (c : ScNativeGarbledBooleanCircuitNoFixedKey)
  : list byte :=
  translationTable (garbledCircuitPtr c).

Definition getTranslationTableSize (c : ScNativeGarbledBooleanCircuitNoFixedKey)
  : nat :=
  native_getNumberOfOutputs (garbledCircuitPtr c).

Definition getOutputWireIndices (c : ScNativeGarbledBooleanCircuitNoFixedKey)
  : list wire :=
  native_getOutputIndices (garbledCircuitPtr c).

(** [getNumberOfInputs(partyNumber)]:
    [getNumOfInputsForEachParty()[partyNumber - 1]]. *)
Definition getNumberOfInputs (c : ScNativeGarbledBooleanCircuitNoFixedKey)
    (partyNumber : int) : outcome int :=
  int_array_read (native_getNumOfInputsForEachParty (garbledCircuitPtr c))
    (partyNumber - 1)%Z.

Definition getNumberOfParties (c : ScNativeGarbledBooleanCircuitNoFixedKey) : int :=
  native_getNumberOfParties (garbledCircuitPtr c).

(** The overload [getInputWireIndices()] without a party number. *)
Definition getAllInputWireIndices (c : ScNativeGarbledBooleanCircuitNoFixedKey)
  : list wire :=
  native_getInputIndices (garbledCircuitPtr c).

Definition getKeySize (c : ScNativeGarbledBooleanCircuitNoFixedKey) : nat :=
  SCAPI_NATIVE_KEY_SIZE.

(** ** Keys as bytes *)

Definition KEY_BITS : N := 128.

(** Wrap-around of a 128-bit block. *)
Definition trunc (k : block) : block := N.land k (N.ones KEY_BITS).

(** The signal (point-and-permute) bit of a key: its least significant bit. *)
Definition signal (k : block) : bool := N.odd k.

Definition byte_of_N (n : N) : byte :=
  match Byte.of_N (n mod 256) with
  | Some b => b
  | None => Byte.x00
  end.

(** Little-endian bytes of a number, [n] of them. *)
Fixpoint bytes_of_N (n : nat) (k : N) : list byte :=
  match n with
  | O => []
  | S n' => byte_of_N k :: bytes_of_N n' (k / 256)
  end.

Fixpoint N_of_bytes (bs : list byte) : N :=
  match bs with
  | [] => 0
  | b :: rest => Byte.to_N b + 256 * N_of_bytes rest
  end.

Definition bytes_of_block (k : block) : list byte :=
  bytes_of_N SCAPI_NATIVE_KEY_SIZE k.

(** A buffer of keys placed one after another. *)
Definition bytes_of_blocks (ks : list block) : list byte :=
  flat_map bytes_of_block ks.

(** [((block* )buf)[i]]: the [i]-th key of a buffer. *)
Definition block_at (buf : list byte) (i : nat) : block :=
  N_of_bytes (firstn SCAPI_NATIVE_KEY_SIZE (skipn (SCAPI_NATIVE_KEY_SIZE * i) buf)).

Definition byte_of_bit (b : bool) : byte := if b then Byte.x01 else Byte.x00.

Definition bit_of_byte (b : byte) : bool := negb (Byte.eqb b Byte.x00).

(** ** Plaintext evaluation *)

Definition upd {A : Type} (m : wire -> A) (w : wire) (v : A) : wire -> A :=
  fun x => if Nat.eqb x w then v else m x.

Fixpoint set_wires {A : Type} (m : wire -> A) (ws : list wire) (vs : list A)
  : wire -> A :=
  match ws, vs with
  | w :: ws', v :: vs' => set_wires (upd m w v) ws' vs'
  | _, _ => m
  end.

(** Modelled from the spec: the boolean function of each gate type over
    the ordered list of its input values (the plain circuit class is not
    part of the header). *)
Definition gate_fun (t : GateType) (vs : list bool) : bool :=
  match t with
  | AND => forallb (fun b => b) vs
  | OR  => existsb (fun b => b) vs
  | XOR => fold_right xorb false vs
  | NOT => negb (hd false vs)
  end.

Definition plain_gate (m : wire -> bool) (g : Gate) : wire -> bool :=
  upd m (gateOutput g) (gate_fun (gateType g) (map m (gateInputs g))).

(** Modelled from the spec: direct plaintext evaluation of the circuit on
    the bits [x] of all input wires, gates taken in the given order. *)
Definition plain_eval (cd : CircuitDescription) (x : list bool) : list bool :=
  let m0 := set_wires (fun _ => false) (inputWires cd) x in
  map (fold_left plain_gate (gates cd) m0) (outputWires cd).

(** Modelled from the spec: the plaintext value of every wire, inner
    ones included, when the circuit is evaluated on [x]. *)
Definition plain_wires (cd : CircuitDescription) (x : list bool) : wire -> bool :=
  fold_left plain_gate (gates cd) (set_wires (fun _ => false) (inputWires cd) x).

(** ** Point-and-permute rows *)

Fixpoint zip_with {A B C : Type} (f : A -> B -> C) (xs : list A) (ys : list B)
  : list C :=
  match xs, ys with
  | x :: xs', y :: ys' => f x y :: zip_with f xs' ys'
  | _, _ => []
  end.

(** All combinations of [n] signal bits, in row order. *)
Fixpoint all_signals (n : nat) : list (list bool) :=
  match n with
  | O => [[]]
  | S n' => map (cons false) (all_signals n') ++ map (cons true) (all_signals n')
  end.

(** The row selected by a combination of signal bits. *)
Fixpoint row_index (s : list bool) : nat :=
  match s with
  | [] => 0
  | b :: s' => (if b then 2 ^ length s' else 0) + row_index s'
  end.

Definition xor_all (ks : list block) : block := fold_right N.lxor 0%N ks.

(** The key of a wire for plaintext value [b], from its [key0] and the
    global offset [R]: [key1 = key0 XOR R]. *)
Definition key_for (R : block) (k0 : block) (b : bool) : block :=
  if b then N.lxor k0 R else k0.

Definition key_bytes_at (buf : list byte) (i : nat) : list byte :=
  firstn SCAPI_NATIVE_KEY_SIZE (skipn (SCAPI_NATIVE_KEY_SIZE * i) buf).

(** Both keys of each wire, one after another:
    [k0,0  k0,1  k1,0  k1,1 ...]. *)
Definition both_keys (R : block) (k0s : list block) : list block :=
  flat_map (fun k0 => [k0; N.lxor k0 R]) k0s.

Section Scheme.

(** The pseudorandom generator ([prg seed i] is the [i]-th block of the
    stream under [seed]) and the pseudorandom function of a tweak and a
    combination of keys.  The header fixes neither. *)
Variable prg : list byte -> nat -> block.
Variable prf : nat -> list block -> block.

(** *** Garbling engine *)

(** Modelled from the spec: the global offset is derived from the
    generator and has low bit 1. *)
Definition offset_of_seed (seed : list byte) : block :=
  N.lor (trunc (prg seed 0)) 1.

(** Modelled from the spec: [key0] of every input wire is taken from the
    generator's stream. *)
Definition input_key0s (seed : list byte) (n : nat) : list block :=
  map (fun i => trunc (prg seed (S i))) (seq 0 n).

Definition derive_tweak (g : Gate) : nat := 2 * gateOutput g.
Definition row_tweak (g : Gate) : nat := 2 * gateOutput g + 1.

Definition row_pad (g : Gate) (ks : list block) : block :=
  trunc (prf (row_tweak g) ks).

(** Modelled from the spec: the rows of a table gate, ordered by the
    signal bits of the input keys; the row for signals [s] encrypts the
    output key of the plaintext values that carry these signals. *)
Definition table_rows (R : block) (g : Gate) (k0s : list block) (out0 : block)
  : list block :=
  map (fun s =>
         let vs := zip_with xorb s (map signal k0s) in
         let ks := zip_with (key_for R) k0s vs in
         N.lxor (row_pad g ks) (key_for R out0 (gate_fun (gateType g) vs)))
      (all_signals (length k0s)).

(** Modelled from the spec: one gate of the garbling pass over the table
    of [key0]s.  An XOR gate emits no row; any other gate derives its
    output key from the input keys and emits its rows. *)
Definition garble_gate (R : block) (gk : wire -> block) (g : Gate)
  : (wire -> block) * list block :=
  let k0s := map gk (gateInputs g) in
  match gateType g with
  | XOR => (upd gk (gateOutput g) (xor_all k0s), [])
  | _ => let out0 := trunc (prf (derive_tweak g) k0s) in
         (upd gk (gateOutput g) out0, table_rows R g k0s out0)
  end.

Fixpoint garble_gates (R : block) (gk : wire -> block) (gs : list Gate)
  : (wire -> block) * list block :=
  match gs with
  | [] => (gk, [])
  | g :: gs' =>
      let (gk1, rows) := garble_gate R gk g in
      let (gk2, rest) := garble_gates R gk1 gs' in
      (gk2, rows ++ rest)
  end.

(** Modelled from the spec: [garble(seed)].  It fails with [InvalidKey]
    on a seed of the wrong length; otherwise it stores the tables and the
    translation table in the circuit and returns both keys of every
    input wire, both keys of every output wire and the translation
    table. *)
Definition garble (c : ScNativeGarbledBooleanCircuitNoFixedKey) (seed : list byte)
  : outcome (ScNativeGarbledBooleanCircuitNoFixedKey * FastCircuitCreationValues) :=
  if Nat.eqb (length seed) SCAPI_NATIVE_KEY_SIZE then
    let cd := description (garbledCircuitPtr c) in
    let R := offset_of_seed seed in
    let in0 := input_key0s seed (length (inputWires cd)) in
    let (gk, rows) :=
      garble_gates R (set_wires (fun _ => 0%N) (inputWires cd) in0) (gates cd) in
    let out0 := map gk (outputWires cd) in
    let tt := map (fun k => byte_of_bit (signal k)) out0 in
    Returned (mkCircuit (mkNative cd rows tt) (garbledInputs c),
              mkValues (Buf (bytes_of_blocks (both_keys R in0)))
                       (Buf (bytes_of_blocks (both_keys R out0)))
                       (Buf tt))
  else Thrown InvalidKey.

(** *** Input selection *)

(** Modelled from the spec: [getInputWireIndices(partyNumber)]. *)
Definition getInputWireIndices (c : ScNativeGarbledBooleanCircuitNoFixedKey)
    (partyNumber : int) : outcome (list wire) :=
  if ((1 <=? partyNumber) && (partyNumber <=? getNumberOfParties c))%Z
  then Returned (nth (Z.to_nat (partyNumber - 1))
                     (partyInputs (description (garbledCircuitPtr c))) [])
  else Thrown NoSuchParty.

(** Position, among all input wires, of the first input wire of the
    party with zero-based number [p]. *)
Definition party_start (cd : CircuitDescription) (p : nat) : nat :=
  length (concat (firstn p (partyInputs cd))).

Definition party_size (cd : CircuitDescription) (p : nat) : nat :=
  length (nth p (partyInputs cd) []).

(** Modelled from the spec: [getGarbledInputFromUngarbledInput].
    [allInputWireValues] holds both keys of each input wire, as the
    comment of the declaration says; for each input wire of the party
    the wire's pair is looked up at the party's position and [key0] or
    [key1] is copied according to the plaintext bit.  An invalid party
    number fails with [NoSuchParty]. *)
Definition getGarbledInputFromUngarbledInput
    (c : ScNativeGarbledBooleanCircuitNoFixedKey)
    (ungarbledInputBits allInputWireValues : list byte) (partyNumber : int)
  : outcome (list byte) :=
  if ((1 <=? partyNumber) && (partyNumber <=? getNumberOfParties c))%Z
  then
    let cd := description (garbledCircuitPtr c) in
    let p := Z.to_nat (partyNumber - 1) in
    Returned
      (flat_map
         (fun j =>
            let bit := bit_of_byte (nth j ungarbledInputBits Byte.x00) in
            key_bytes_at allInputWireValues
              (2 * (party_start cd p + j) + (if bit then 1 else 0)))
         (seq 0 (party_size cd p)))
  else Thrown NoSuchParty.

(** The plaintext bits of one party, cut out of the bits [x] of all
    input wires. *)
Definition party_bits (cd : CircuitDescription) (x : list bool) (p : nat)
  : list byte :=
  map byte_of_bit (firstn (party_size cd p) (skipn (party_start cd p) x)).

Fixpoint select_parties (c : ScNativeGarbledBooleanCircuitNoFixedKey)
    (x : list bool) (allInputWireValues : list byte) (ps : list nat)
  : outcome (list byte) :=
  match ps with
  | [] => Returned []
  | p :: ps' =>
      ks <- getGarbledInputFromUngarbledInput c
              (party_bits (description (garbledCircuitPtr c)) x p)
              allInputWireValues (Z.of_nat (S p)) ;;
      rest <- select_parties c x allInputWireValues ps' ;;
      Returned (ks ++ rest)
  end.

(** The keys of the assignment [x]: every party selects its keys, and
    the selections are placed one after another in party order. *)
Definition garble_inputs (c : ScNativeGarbledBooleanCircuitNoFixedKey)
    (x : list bool) (allInputWireValues : list byte) : outcome (list byte) :=
  select_parties c x allInputWireValues
    (seq 0 (length (partyInputs (description (garbledCircuitPtr c))))).

(** *** Evaluation engine *)

(** Modelled from the spec: one gate of the evaluation pass.  An XOR
    gate XORs the input keys; any other gate picks the row of its table
    that the signal bits of the input keys select, and decrypts it. *)
Definition eval_gate (st : (wire -> block) * list block) (g : Gate)
  : (wire -> block) * list block :=
  let (m, tbl) := st in
  let ks := map m (gateInputs g) in
  match gateType g with
  | XOR => (upd m (gateOutput g) (xor_all ks), tbl)
  | _ =>
      let n := 2 ^ length ks in
      let row := nth (row_index (map signal ks)) (firstn n tbl) 0%N in
      (upd m (gateOutput g) (N.lxor (row_pad g ks) row), skipn n tbl)
  end.

Definition eval_gates (m : wire -> block) (tbl : list block) (gs : list Gate)
  : wire -> block :=
  fst (fold_left eval_gate gs (m, tbl)).

(** Modelled from the spec: [compute()].  It fails with
    [NotAllInputsSet] unless the stored input buffer holds one key per
    input wire; otherwise it walks the gates and returns one key per
    output wire. *)
Definition compute (c : ScNativeGarbledBooleanCircuitNoFixedKey)
  : outcome (list byte) :=
  let cd := description (garbledCircuitPtr c) in
  let n := length (inputWires cd) in
  if Nat.eqb (length (garbledInputs c)) (SCAPI_NATIVE_KEY_SIZE * n) then
    let ks := map (block_at (garbledInputs c)) (seq 0 n) in
    let m := eval_gates (set_wires (fun _ => 0%N) (inputWires cd) ks)
               (garbledTables (garbledCircuitPtr c)) (gates cd) in
    Returned (bytes_of_blocks (map m (outputWires cd)))
  else Thrown NotAllInputsSet.

(** Modelled from the spec: the key that [compute()] holds on each wire
    once it has walked the gates; the keys it returns are those of the
    output wires. *)
Definition computed_wires (c : ScNativeGarbledBooleanCircuitNoFixedKey)
  : wire -> block :=
  let cd := description (garbledCircuitPtr c) in
  let ks := map (block_at (garbledInputs c)) (seq 0 (length (inputWires cd))) in
  eval_gates (set_wires (fun _ => 0%N) (inputWires cd) ks)
    (garbledTables (garbledCircuitPtr c)) (gates cd).

(** *** Translation engine *)

(** Modelled from the spec: [translate(garbledOutput)].  The plaintext
    bit of an output wire is the signal bit of its key XOR the wire's
    translation table entry. *)
Definition translate (c : ScNativeGarbledBooleanCircuitNoFixedKey)
    (garbledOutput : list byte) : list byte :=
  map (fun i =>
         byte_of_bit
           (xorb (signal (block_at garbledOutput i))
                 (bit_of_byte (nth i (getTranslationTable c) Byte.x00))))
      (seq 0 (getTranslationTableSize c)).

(** The two keys of the [i]-th wire of a both-keys buffer
    [k0,0  k0,1  k1,0  k1,1 ...]. *)
Definition pair_at (buf : list byte) (i : nat) : block * block :=
  (block_at buf (2 * i), block_at buf (2 * i + 1)).

End Scheme.

(** ** A concrete instance, for running the model *)

Definition toy_prg (seed : list byte) (i : nat) : block :=
  ((N_of_bytes seed + 977) * (N.of_nat i + 31) * 6364136223846793005
   + N.of_nat i * 1442695040888963407)%N.

Definition toy_prf (t : nat) (ks : list block) : block :=
  fold_left
    (fun a k => (a * 2862933555777941757 + k + 3037000493) mod 2 ^ 130)%N
    ks (N.of_nat t + 17)%N.

(** inputs: wire 0 (party 1), wires 1 and 2 (party 2);
    3 = 0 AND 1; 4 = 3 XOR 2; 5 = NOT 4; 6 = 3 OR 5; outputs 4, 6. *)
Definition toy_description : CircuitDescription :=
  mkDescription
    [mkGate AND [0; 1] 3; mkGate XOR [3; 2] 4; mkGate NOT [4] 5;
     mkGate OR [3; 5] 6]
    [[0]; [1; 2]]
    [4; 6].

Definition toy_circuit : ScNativeGarbledBooleanCircuitNoFixedKey :=
  mkCircuit (mkNative toy_description [] []) [].

Definition toy_seed : list byte :=
  map byte_of_N [1; 2; 3; 4; 5; 6; 7; 8; 9; 10; 11; 12; 13; 14; 15; 16]%N.

(** One AND gate: inputs wire 0 (party 1) and wire 1 (party 2), output
    wire 2. *)
Definition and_description : CircuitDescription :=
  mkDescription [mkGate AND [0; 1] 2] [[0]; [1]] [2].

Definition and_circuit : ScNativeGarbledBooleanCircuitNoFixedKey :=
  mkCircuit (mkNative and_description [] []) [].

(** The same description in a circuit that was used before. *)
Definition toy_used_circuit : ScNativeGarbledBooleanCircuitNoFixedKey :=
  mkCircuit (mkNative toy_description [1; 2; 3]%N [Byte.x01; Byte.x00])
            [Byte.x07].

(** Garble, select the keys of [x], store them, compute, translate. *)
Definition round_trip (prg : list byte -> nat -> block)
    (prf : nat -> list block -> block)
    (c : ScNativeGarbledBooleanCircuitNoFixedKey) (seed : list byte)
    (x : list bool) : outcome (list byte) :=
  r <- garble prg prf c seed ;;
  match getAllInputWireValues (snd r) with
  | NULL => Undefined
  | Buf allIn =>
      ks <- garble_inputs (fst r) x allIn ;;
      c2 <- setInputs (fst r) ks ;;
      out <- compute prf c2 ;;
      Returned (translate c2 out)
  end.

(** ** Further operations whose bodies the header gives *)

(** [setTranslationTable(translationTable)]:
    [memcpy(garbledCircuitPtr->getTranslationTable(), translationTable,
    garbledCircuitPtr->getNumberOfOutputs())], for an argument that
    points to a buffer [t] sharing no byte with the stored table
    ([setTranslationTable_at] below is the call on any pointer).  The
    first [getNumberOfOutputs()] bytes of the argument overwrite the
    first bytes of the stored table; a copy that runs past the end of
    either buffer is undefined. *)
Definition setTranslationTable (c : ScNativeGarbledBooleanCircuitNoFixedKey)
    (t : list byte) : outcome ScNativeGarbledBooleanCircuitNoFixedKey :=
  let old := garbledCircuitPtr c in
  let n := native_getNumberOfOutputs old in
  if Nat.leb n (length t) && Nat.leb n (length (translationTable old)) then
    Returned
      (mkCircuit
         (mkNative (description old) (garbledTables old)
            (firstn n t ++ skipn n (translationTable old)))
         (garbledInputs c))
  else Undefined.

(** Where the [byte*] argument of [setTranslationTable] points: into a
    buffer that shares no byte with the stored table, or into the stored
    table itself, [offset] bytes after the pointer that
    [getTranslationTable()] hands out. *)
Inductive table_arg : Type :=
| Elsewhere : list byte -> table_arg
| Within : nat -> table_arg.

(** The bytes that the argument points to. *)
Definition arg_bytes (c : ScNativeGarbledBooleanCircuitNoFixedKey)
    (p : table_arg) : list byte :=
  match p with
  | Elsewhere t => t
  | Within offset => skipn offset (getTranslationTable c)
  end.

(** [setTranslationTable(translationTable)] on any pointer.  [memcpy] is
    undefined when the [getNumberOfOutputs()] bytes it reads overlap the
    bytes it writes, which a pointer into the first
    [getNumberOfOutputs()] bytes of the stored table makes them do, and
    when the copy runs past the end of the stored table. *)
Definition setTranslationTable_at (c : ScNativeGarbledBooleanCircuitNoFixedKey)
    (p : table_arg) : outcome ScNativeGarbledBooleanCircuitNoFixedKey :=
  match p with
  | Elsewhere t => setTranslationTable c t
  | Within offset =>
      let old := garbledCircuitPtr c in
      let n := native_getNumberOfOutputs old in
      if (Nat.eqb n 0 || Nat.leb n offset)
         && Nat.leb (offset + n) (length (translationTable old))
      then
        Returned
          (mkCircuit
             (mkNative (description old) (garbledTables old)
                (firstn n (skipn offset (translationTable old))
                 ++ skipn n (translationTable old)))
             (garbledInputs c))
      else Undefined
  end.

(** A run of [setGarbledTables] calls on one holder, in order. *)
Definition holder_updates (h : JustGarbledGarbledTablesHolder)
    (us : list (byte_ptr * int)) : JustGarbledGarbledTablesHolder :=
  fold_left (fun h' u => holder_setGarbledTables h' (fst u) (snd u)) us h.

(** ** Relations used in the proofs *)

(** The evaluator's key of every wire is the garbler's key for the
    plaintext value of that wire. *)
Definition keys_agree (R : block) (gk m : wire -> block) (pl : wire -> bool)
  : Prop :=
  forall w, m w = key_for R (gk w) (pl w).

(** The key of the [i]-th input wire that stands for the [i]-th bit. *)
Definition chosen_key (R : block) (k0s : list block) (x : list bool) (i : nat)
  : block :=
  key_for R (nth i k0s 0%N) (nth i x false).

(** Every key in the garbler's table fits in a block. *)
Definition all_blocks (gk : wire -> block) : Prop :=
  forall w, trunc (gk w) = gk w.

(** * Properties *)

(** ** The tables holder *)

(** C9. A holder constructed with, or updated to, [(tables, size)]
    answers [getArraySize(0)] with [size], fails with an invalid-argument
    condition at every other index, and hands out its single byte region
    as location 0 of [toDoubleByteArray()]. *)
Theorem holder_getArraySize :
  forall (tables : byte_ptr) (size : int) (h : JustGarbledGarbledTablesHolder),
    let built := newHolder tables size in
    let updated := holder_setGarbledTables h tables size in
    getArraySize built 0%Z = Returned size /\
    getArraySize updated 0%Z = Returned size /\
    (forall i : int, i <> 0%Z ->
       getArraySize built i = Thrown InvalidArgument /\
       getArraySize updated i = Thrown InvalidArgument) /\
    toDoubleByteArray built = [tables] /\
    toDoubleByteArray updated = [tables].
Proof.
  intros tables size h built updated.
  repeat split; try reflexivity.
  - unfold getArraySize. destruct (Z.eqb_spec i 0); [contradiction | reflexivity].
  - unfold getArraySize. destruct (Z.eqb_spec i 0); [contradiction | reflexivity].
Qed.

Lemma holder_getArraySize_witness :
  getArraySize (newHolder (Buf [Byte.x2a; Byte.x07]) 2%Z) 0%Z = Returned 2%Z /\
  getArraySize (newHolder (Buf [Byte.x2a; Byte.x07]) 2%Z) 1%Z = Thrown InvalidArgument /\
  getArraySize (holder_setGarbledTables (newHolder NULL 0%Z)
                  (Buf [Byte.x2a; Byte.x07]) 2%Z) (-3)%Z = Thrown InvalidArgument.
Proof.
  pose proof (holder_getArraySize (Buf [Byte.x2a; Byte.x07]) 2%Z (newHolder NULL 0%Z))
    as (H0 & _ & Hi & _).
  split; [exact H0 | split].
  - apply (Hi 1%Z). lia.
  - apply (Hi (-3)%Z). lia.
Defined.

(** ** Operations whose bodies the header gives *)

(** C10. [setInputs] returns normally on every byte vector, of any
    length: the circuit it leaves holds exactly the given buffer in place
    of the previous one and the same native object; no condition is
    raised by it. *)
Theorem setInputs_stores :
  forall (c : ScNativeGarbledBooleanCircuitNoFixedKey) (inputs : list byte),
    exists c',
      setInputs c inputs = Returned c' /\
      garbledInputs c' = inputs /\
      garbledCircuitPtr c' = garbledCircuitPtr c /\
      (forall e, setInputs c inputs <> Thrown e).
Proof.
  intros c inputs. eexists. split; [reflexivity |].
  repeat split. intros e H. discriminate H.
Qed.

(** C1 (what the code does). [verifiedTranslate] compares nothing: on
    every pair of buffers it returns the null pointer.  With valid keys 2
    and 3 for the single output wire, the supplied key 7 raises no cheat
    condition and the valid key 3 yields no bit array. *)
Theorem verifiedTranslate_returns_NULL :
  (forall c garbledOutput allOutputWireValues,
      verifiedTranslate c garbledOutput allOutputWireValues = Returned NULL) /\
  verifiedTranslate and_circuit (bytes_of_blocks [7%N]) (bytes_of_blocks [2%N; 3%N])
    <> Thrown CheatAttempt /\
  verifiedTranslate and_circuit (bytes_of_blocks [3%N]) (bytes_of_blocks [2%N; 3%N])
    <> Returned (Buf [Byte.x01]).
Proof.
  split; [reflexivity | split; discriminate].
Qed.

(** C6 (what the code does). [getNumberOfInputs] indexes the per-party
    array at [partyNumber - 1] without a range test, so it never raises
    the no-such-party condition: inside the range it returns the party's
    count, outside it the read is out of bounds. *)
Theorem getNumberOfInputs_unchecked :
  (forall c partyNumber, getNumberOfInputs c partyNumber <> Thrown NoSuchParty) /\
  getNumberOfParties toy_circuit = 2%Z /\
  getNumberOfInputs toy_circuit 2%Z = Returned 2%Z /\
  getNumberOfInputs toy_circuit 0%Z = Undefined /\
  getNumberOfInputs toy_circuit 3%Z = Undefined.
Proof.
  split; [| repeat split].
  intros c p. unfold getNumberOfInputs, int_array_read.
  destruct (_ && _); discriminate.
Qed.

(** ** Keys and their bytes *)

Lemma to_N_byte_of_N (n : N) : Byte.to_N (byte_of_N n) = (n mod 256)%N.
Proof.
  unfold byte_of_N.
  destruct (Byte.of_N (n mod 256)) as [b|] eqn:E.
  - now apply Byte.to_of_N.
  - apply Byte.of_N_None_iff in E.
    pose proof (N.mod_upper_bound n 256). lia.
Qed.

Lemma length_bytes_of_N (n : nat) (k : N) : length (bytes_of_N n k) = n.
Proof.
  revert k. induction n as [|n IH]; intros k; simpl; [reflexivity | now rewrite IH].
Qed.

Lemma N_of_bytes_of_N (n : nat) (k : N) :
  N_of_bytes (bytes_of_N n k) = (k mod 2 ^ (8 * N.of_nat n))%N.
Proof.
  revert k. induction n as [|n IH]; intros k.
  - simpl. now rewrite N.mod_1_r.
  - cbn [bytes_of_N N_of_bytes]. rewrite IH, to_N_byte_of_N.
    replace (8 * N.of_nat (S n))%N with (8 + 8 * N.of_nat n)%N by lia.
    rewrite N.pow_add_r. change (2 ^ 8)%N with 256%N.
    now rewrite N.Div0.mod_mul_r.
Qed.

Lemma trunc_mod (k : block) : trunc k = (k mod 2 ^ KEY_BITS)%N.
Proof. apply N.land_ones. Qed.

Lemma N_of_bytes_of_block (k : block) : N_of_bytes (bytes_of_block k) = trunc k.
Proof.
  unfold bytes_of_block. rewrite N_of_bytes_of_N, trunc_mod. reflexivity.
Qed.

Lemma length_bytes_of_block (k : block) :
  length (bytes_of_block k) = SCAPI_NATIVE_KEY_SIZE.
Proof. apply length_bytes_of_N. Qed.

Lemma length_bytes_of_blocks (ks : list block) :
  length (bytes_of_blocks ks) = SCAPI_NATIVE_KEY_SIZE * length ks.
Proof.
  unfold bytes_of_blocks.
  rewrite (flat_map_constant_length (c := SCAPI_NATIVE_KEY_SIZE)).
  - apply Nat.mul_comm.
  - intros k _. apply length_bytes_of_block.
Qed.

Lemma key_bytes_at_blocks (ks : list block) (i : nat) :
  i < length ks ->
  key_bytes_at (bytes_of_blocks ks) i = bytes_of_block (nth i ks 0%N).
Proof.
  revert i. induction ks as [|k ks IH]; intros i Hi; [simpl in Hi; lia |].
  unfold key_bytes_at, bytes_of_blocks in *. cbn [flat_map].
  pose proof (length_bytes_of_block k) as Hk.
  destruct i as [|i].
  - rewrite Nat.mul_0_r. cbn [skipn nth].
    rewrite firstn_app, Hk, Nat.sub_diag, firstn_O, app_nil_r.
    rewrite <- Hk. apply firstn_all.
  - cbn [nth]. rewrite skipn_app, Hk.
    rewrite skipn_all2 by (rewrite Hk; lia). cbn [app].
    replace (SCAPI_NATIVE_KEY_SIZE * S i - SCAPI_NATIVE_KEY_SIZE)
      with (SCAPI_NATIVE_KEY_SIZE * i) by lia.
    apply IH. simpl in Hi. lia.
Qed.

Lemma block_at_blocks (ks : list block) (i : nat) :
  i < length ks -> block_at (bytes_of_blocks ks) i = trunc (nth i ks 0%N).
Proof.
  intros Hi. unfold block_at. fold (key_bytes_at (bytes_of_blocks ks) i).
  rewrite key_bytes_at_blocks by assumption. apply N_of_bytes_of_block.
Qed.

Lemma trunc_lxor (a b : block) : trunc (N.lxor a b) = N.lxor (trunc a) (trunc b).
Proof.
  unfold trunc. apply N.bits_inj. intros n.
  rewrite N.land_spec, !N.lxor_spec, !N.land_spec.
  destruct (N.testbit a n), (N.testbit b n), (N.testbit (N.ones KEY_BITS) n);
    reflexivity.
Qed.

Lemma trunc_idem (k : block) : trunc (trunc k) = trunc k.
Proof.
  unfold trunc. now rewrite <- N.land_assoc, N.land_diag.
Qed.

Lemma signal_trunc (k : block) : signal (trunc k) = signal k.
Proof.
  unfold signal, trunc. rewrite <- !N.bit0_odd, N.land_spec.
  rewrite N.ones_spec_low by (unfold KEY_BITS; lia).
  apply andb_true_r.
Qed.

Lemma signal_lxor (a b : block) : signal (N.lxor a b) = xorb (signal a) (signal b).
Proof.
  unfold signal. rewrite <- !N.bit0_odd. apply N.lxor_spec.
Qed.

(** ** Row selection *)

Lemma length_all_signals (n : nat) : length (all_signals n) = 2 ^ n.
Proof.
  induction n as [|n IH]; [reflexivity |].
  cbn [all_signals]. rewrite length_app, !length_map, IH. simpl. lia.
Qed.

Lemma row_index_lt (s : list bool) : row_index s < 2 ^ length s.
Proof.
  induction s as [|b s IH]; [simpl; lia |].
  cbn [row_index length]. rewrite Nat.pow_succ_r'. destruct b; lia.
Qed.

Lemma nth_all_signals (s d : list bool) :
  nth (row_index s) (all_signals (length s)) d = s.
Proof.
  induction s as [|b s IH]; [reflexivity |].
  cbn [row_index length all_signals].
  pose proof (row_index_lt s) as Hlt.
  destruct b.
  - rewrite app_nth2 by (rewrite length_map, length_all_signals; lia).
    rewrite length_map, length_all_signals.
    replace (2 ^ length s + row_index s - 2 ^ length s) with (row_index s) by lia.
    rewrite (nth_indep _ d (true :: d))
      by (rewrite length_map, length_all_signals; exact Hlt).
    rewrite map_nth. now rewrite IH.
  - rewrite Nat.add_0_l.
    rewrite app_nth1 by (rewrite length_map, length_all_signals; exact Hlt).
    rewrite (nth_indep _ d (false :: d))
      by (rewrite length_map, length_all_signals; exact Hlt).
    rewrite map_nth. now rewrite IH.
Qed.

Lemma length_zip_with {A B C : Type} (f : A -> B -> C) (xs : list A) (ys : list B) :
  length xs = length ys -> length (zip_with f xs ys) = length xs.
Proof.
  revert ys. induction xs as [|x xs IH]; intros [|y ys] H; simpl in *;
    try reflexivity; try discriminate.
  now rewrite IH by lia.
Qed.

Lemma map_zip_with {A B C D : Type} (h : C -> D) (f : A -> B -> C)
    (xs : list A) (ys : list B) :
  map h (zip_with f xs ys) = zip_with (fun x y => h (f x y)) xs ys.
Proof.
  revert ys. induction xs as [|x xs IH]; intros [|y ys]; simpl; try reflexivity.
  now rewrite IH.
Qed.

Lemma zip_with_maps {A B C W : Type} (f : A -> B -> C) (p : W -> A) (q : W -> B)
    (ws : list W) :
  zip_with f (map p ws) (map q ws) = map (fun w => f (p w) (q w)) ws.
Proof.
  induction ws as [|w ws IH]; simpl; [reflexivity | now rewrite IH].
Qed.

(** ** The free-XOR offset *)

Section Offset.

Variable R : block.
Hypothesis R_signal : signal R = true.

Lemma signal_key_for (k0 : block) (b : bool) :
  signal (key_for R k0 b) = xorb (signal k0) b.
Proof.
  destruct b; simpl.
  - now rewrite signal_lxor, R_signal.
  - now rewrite xorb_false_r.
Qed.

Lemma key_for_lxor (a b : block) (x y : bool) :
  N.lxor (key_for R a x) (key_for R b y) = key_for R (N.lxor a b) (xorb x y).
Proof.
  destruct x, y; simpl; try reflexivity.
  - rewrite (N.lxor_comm b R), N.lxor_assoc, <- (N.lxor_assoc R R b).
    now rewrite N.lxor_nilpotent, N.lxor_0_l.
  - rewrite N.lxor_assoc, (N.lxor_comm R b). now rewrite N.lxor_assoc.
  - now rewrite N.lxor_assoc.
Qed.

Lemma xor_all_key_for (k0s : list block) (vs : list bool) :
  length vs = length k0s ->
  xor_all (zip_with (key_for R) k0s vs)
  = key_for R (xor_all k0s) (fold_right xorb false vs).
Proof.
  revert vs. induction k0s as [|k ks IH]; intros [|v vs] H; simpl in *;
    try reflexivity; try discriminate.
  rewrite IH by lia. apply key_for_lxor.
Qed.

Lemma signals_recover_values (k0s : list block) (vs : list bool) :
  length vs = length k0s ->
  zip_with xorb (map signal (zip_with (key_for R) k0s vs)) (map signal k0s) = vs.
Proof.
  revert vs. induction k0s as [|k ks IH]; intros [|v vs] H; simpl in *;
    try reflexivity; try discriminate.
  rewrite IH by lia. rewrite signal_key_for.
  now destruct (signal k), v.
Qed.

End Offset.

(** ** Evaluating a garbled gate list *)

Section Engine.

Variable prf : nat -> list block -> block.
Variable R : block.
Hypothesis R_signal : signal R = true.

Lemma length_table_rows (g : Gate) (k0s : list block) (out0 : block) :
  length (table_rows prf R g k0s out0) = 2 ^ length k0s.
Proof.
  unfold table_rows. now rewrite length_map, length_all_signals.
Qed.

(** The row that the evaluator's keys select encrypts the output key of
    the plaintext values these keys stand for. *)
Lemma table_row_selected (g : Gate) (k0s : list block) (out0 : block)
    (vs : list bool) :
  length vs = length k0s ->
  nth (row_index (map signal (zip_with (key_for R) k0s vs)))
      (table_rows prf R g k0s out0) 0%N
  = N.lxor (row_pad prf g (zip_with (key_for R) k0s vs))
           (key_for R out0 (gate_fun (gateType g) vs)).
Proof.
  intros Hlen. unfold table_rows.
  set (F := fun s : list bool => _).
  set (s := map signal (zip_with (key_for R) k0s vs)).
  assert (Hs : length s = length k0s).
  { unfold s. rewrite length_map. apply length_zip_with. lia. }
  rewrite (nth_indep _ 0%N (F [])).
  2:{ rewrite length_map, length_all_signals, <- Hs. apply row_index_lt. }
  rewrite map_nth, <- Hs, nth_all_signals.
  unfold F, s. now rewrite signals_recover_values.
Qed.

Lemma keys_agree_upd (gk m : wire -> block) (pl : wire -> bool)
    (o : wire) (k0 k : block) (b : bool) :
  keys_agree R gk m pl -> k = key_for R k0 b ->
  keys_agree R (upd gk o k0) (upd m o k) (upd pl o b).
Proof.
  intros H Hk w. unfold upd. destruct (Nat.eqb w o); [exact Hk | apply H].
Qed.

Lemma keys_agree_inputs (gk m : wire -> block) (pl : wire -> bool)
    (ws : list wire) :
  keys_agree R gk m pl ->
  map m ws = zip_with (key_for R) (map gk ws) (map pl ws).
Proof.
  intros H. rewrite zip_with_maps. apply map_ext. intros w. apply H.
Qed.

Lemma table_gate_decrypts (gk m : wire -> block) (pl : wire -> bool) (g : Gate)
    (out0 : block) (rest : list block) :
  keys_agree R gk m pl ->
  let ks := map m (gateInputs g) in
  let tbl := table_rows prf R g (map gk (gateInputs g)) out0 ++ rest in
  N.lxor (row_pad prf g ks)
         (nth (row_index (map signal ks)) (firstn (2 ^ length ks) tbl) 0%N)
  = key_for R out0 (gate_fun (gateType g) (map pl (gateInputs g)))
  /\ skipn (2 ^ length ks) tbl = rest.
Proof.
  intros H ks tbl. unfold ks, tbl.
  pose proof (length_table_rows g (map gk (gateInputs g)) out0) as Hrows.
  rewrite !length_map in *.
  split.
  - rewrite firstn_app, Hrows, Nat.sub_diag, firstn_O, app_nil_r.
    rewrite <- Hrows at 1. rewrite firstn_all.
    rewrite (keys_agree_inputs (gateInputs g) H).
    rewrite table_row_selected by now rewrite !length_map.
    rewrite <- N.lxor_assoc, N.lxor_nilpotent. apply N.lxor_0_l.
  - rewrite skipn_app, Hrows, Nat.sub_diag.
    rewrite skipn_all2 by lia. reflexivity.
Qed.

Lemma gate_step (gk m : wire -> block) (pl : wire -> bool) (g : Gate)
    (rest : list block) :
  keys_agree R gk m pl ->
  exists m1,
    eval_gate prf (m, snd (garble_gate prf R gk g) ++ rest) g = (m1, rest) /\
    keys_agree R (fst (garble_gate prf R gk g)) m1 (plain_gate pl g).
Proof.
  intros H. unfold garble_gate, eval_gate, plain_gate.
  destruct (gateType g) eqn:Ht; cbn [fst snd app].
  3:{ eexists. split; [reflexivity |].
      apply keys_agree_upd; [exact H |].
      rewrite (keys_agree_inputs (gateInputs g) H).
      cbn [gate_fun]. apply xor_all_key_for.
      now rewrite !length_map. }
  all: destruct (table_gate_decrypts g
                   (trunc (prf (derive_tweak g) (map gk (gateInputs g)))) rest H)
         as [Hdec Hskip];
    rewrite Ht in Hdec;
    eexists; (split; [rewrite Hskip; reflexivity |]);
    apply keys_agree_upd; [exact H | exact Hdec].
Qed.

(** The evaluator, run on the tables the garbler emitted and started
    from keys that stand for the plaintext values [pl], ends on the keys
    that stand for the plaintext values after the gates. *)
Lemma gates_correct (gs : list Gate) :
  forall (gk m : wire -> block) (pl : wire -> bool),
    keys_agree R gk m pl ->
    keys_agree R (fst (garble_gates prf R gk gs))
               (eval_gates prf m (snd (garble_gates prf R gk gs)) gs)
               (fold_left plain_gate gs pl).
Proof.
  induction gs as [|g gs IH]; intros gk m pl H.
  - exact H.
  - cbn [garble_gates fold_left]. unfold eval_gates. cbn [fold_left].
    destruct (gate_step g (snd (garble_gates prf R (fst (garble_gate prf R gk g)) gs)) H)
      as (m1 & Hev & H1).
    destruct (garble_gate prf R gk g) as [gk1 rows] eqn:Hg. cbn [fst snd] in *.
    specialize (IH gk1 m1 (plain_gate pl g) H1).
    destruct (garble_gates prf R gk1 gs) as [gk2 rest] eqn:Hgs. cbn [fst snd] in *.
    rewrite Hev. exact IH.
Qed.

Lemma keys_agree_set_wires (ws : list wire) :
  forall (k0s : list block) (x : list bool) (gk m : wire -> block)
         (pl : wire -> bool),
    length k0s = length x ->
    keys_agree R gk m pl ->
    keys_agree R (set_wires gk ws k0s)
               (set_wires m ws (zip_with (key_for R) k0s x))
               (set_wires pl ws x).
Proof.
  induction ws as [|w ws IH]; intros k0s x gk m pl Hlen H.
  - destruct k0s, x; exact H.
  - destruct k0s as [|k k0s], x as [|b x]; try discriminate; [exact H |].
    cbn [set_wires zip_with]. apply IH; [simpl in Hlen; lia |].
    now apply keys_agree_upd.
Qed.

End Engine.

(** ** Buffers read by position *)

Lemma map_seq_nth {A B : Type} (f : A -> B) (l : list A) (d : A) :
  map (fun i => f (nth i l d)) (seq 0 (length l)) = map f l.
Proof.
  induction l as [|a l IH]; [reflexivity |].
  cbn [length seq map nth]. f_equal.
  rewrite <- seq_shift, map_map. exact IH.
Qed.

Lemma map_seq_shift {B : Type} (f : nat -> B) (start len : nat) :
  map f (seq start len) = map (fun j => f (start + j)) (seq 0 len).
Proof.
  revert start. induction len as [|len IH]; intros start; [reflexivity |].
  cbn [seq map]. rewrite Nat.add_0_r. f_equal.
  rewrite IH, <- seq_shift, map_map.
  apply map_ext. intros j. f_equal. lia.
Qed.

Lemma zip_with_nth {A B C : Type} (f : A -> B -> C) (xs : list A) (ys : list B)
    (dx : A) (dy : B) :
  length xs = length ys ->
  zip_with f xs ys
  = map (fun i => f (nth i xs dx) (nth i ys dy)) (seq 0 (length xs)).
Proof.
  revert ys. induction xs as [|a xs IH]; intros [|b ys] H; simpl in H;
    try discriminate; [reflexivity |].
  cbn [zip_with length seq map nth]. f_equal.
  rewrite <- seq_shift, map_map. apply IH. lia.
Qed.

Lemma nth_map_indep {A B : Type} (f : A -> B) (l : list A) (d : A) (d' : B)
    (i : nat) :
  i < length l -> nth i (map f l) d' = f (nth i l d).
Proof.
  intros Hi. rewrite (nth_indep _ d' (f d)) by now rewrite length_map.
  apply map_nth.
Qed.

Lemma bit_of_byte_of_bit (b : bool) : bit_of_byte (byte_of_bit b) = b.
Proof. now destruct b. Qed.

Lemma length_both_keys (R : block) (k0s : list block) :
  length (both_keys R k0s) = 2 * length k0s.
Proof.
  unfold both_keys. induction k0s as [|k ks IH]; [reflexivity |].
  cbn [flat_map app length]. rewrite IH. lia.
Qed.

Lemma nth_both_keys (R : block) (k0s : list block) (i : nat) (b : bool) :
  i < length k0s ->
  nth (2 * i + (if b then 1 else 0)) (both_keys R k0s) 0%N
  = key_for R (nth i k0s 0%N) b.
Proof.
  revert i. induction k0s as [|k ks IH]; intros i Hi; [simpl in Hi; lia |].
  destruct i as [|i].
  - destruct b; reflexivity.
  - replace (2 * S i + (if b then 1 else 0))
      with (S (S (2 * i + (if b then 1 else 0)))) by lia.
    cbn [both_keys flat_map app nth]. apply IH. simpl in Hi. lia.
Qed.

(** The bytes copied for position [i] and bit [b] out of a both-keys
    buffer are those of the key that stands for [b]. *)
Lemma key_bytes_at_both_keys (R : block) (k0s : list block) (i : nat) (b : bool) :
  i < length k0s ->
  key_bytes_at (bytes_of_blocks (both_keys R k0s)) (2 * i + (if b then 1 else 0))
  = bytes_of_block (key_for R (nth i k0s 0%N) b).
Proof.
  intros Hi. rewrite key_bytes_at_blocks.
  - now rewrite nth_both_keys.
  - rewrite length_both_keys. destruct b; lia.
Qed.

(** ** Parties *)

Lemma length_concat_firstn_succ {A : Type} (l : list (list A)) (p : nat) :
  p < length l ->
  length (concat (firstn (S p) l))
  = length (concat (firstn p l)) + length (nth p l []).
Proof.
  revert p. induction l as [|a l IH]; intros p Hp; [simpl in Hp; lia |].
  destruct p as [|p].
  - cbn [firstn concat nth length]. rewrite app_nil_r. lia.
  - rewrite (firstn_cons (S p)), (firstn_cons p). cbn [concat nth].
    rewrite !length_app, IH by (simpl in Hp; lia). lia.
Qed.

Lemma party_start_succ (cd : CircuitDescription) (p : nat) :
  p < length (partyInputs cd) ->
  party_start cd (S p) = party_start cd p + party_size cd p.
Proof.
  apply length_concat_firstn_succ.
Qed.

Lemma party_start_all (cd : CircuitDescription) :
  party_start cd (length (partyInputs cd)) = length (inputWires cd).
Proof.
  unfold party_start, inputWires. now rewrite firstn_all.
Qed.

Lemma party_start_le (cd : CircuitDescription) (p : nat) :
  party_start cd p <= length (inputWires cd).
Proof.
  unfold party_start, inputWires.
  rewrite <- (firstn_skipn p (partyInputs cd)) at 2.
  rewrite concat_app, length_app. lia.
Qed.

Lemma flat_map_ext_in {A B : Type} (f g : A -> list B) (l : list A) :
  (forall a, In a l -> f a = g a) -> flat_map f l = flat_map g l.
Proof.
  intros H. rewrite !flat_map_concat_map. f_equal. now apply map_ext_in.
Qed.

Lemma bytes_of_blocks_map {A : Type} (f : A -> block) (l : list A) :
  bytes_of_blocks (map f l) = flat_map (fun a => bytes_of_block (f a)) l.
Proof.
  unfold bytes_of_blocks. rewrite !flat_map_concat_map, map_map. reflexivity.
Qed.

Section Selection.

Variable c : ScNativeGarbledBooleanCircuitNoFixedKey.
Variable R : block.
Variable k0s : list block.
Variable x : list bool.

Let cd := description (garbledCircuitPtr c).

Hypothesis k0s_length : length k0s = length (inputWires cd).
Hypothesis x_length : length x = length (inputWires cd).

Lemma party_selected (p : nat) :
  p < length (partyInputs cd) ->
  getGarbledInputFromUngarbledInput c (party_bits cd x p)
    (bytes_of_blocks (both_keys R k0s)) (Z.of_nat (S p))
  = Returned (bytes_of_blocks
                (map (chosen_key R k0s x) (seq (party_start cd p) (party_size cd p)))).
Proof.
  intros Hp. unfold getGarbledInputFromUngarbledInput.
  unfold getNumberOfParties, native_getNumberOfParties. fold cd.
  replace ((1 <=? Z.of_nat (S p))%Z && (Z.of_nat (S p) <=? Z.of_nat (length (partyInputs cd)))%Z)
    with true.
  2:{ symmetry. apply andb_true_iff. split; apply Z.leb_le; lia. }
  replace (Z.to_nat (Z.of_nat (S p) - 1)) with p by lia.
  f_equal.
  rewrite (map_seq_shift (chosen_key R k0s x)), bytes_of_blocks_map.
  apply flat_map_ext_in. intros j Hj. apply in_seq in Hj. cbv zeta.
  pose proof (party_start_succ cd Hp) as Hs.
  pose proof (party_start_le cd (S p)) as Hle.
  rewrite key_bytes_at_both_keys by lia.
  unfold chosen_key. do 2 f_equal.
  unfold party_bits. change Byte.x00 with (byte_of_bit false).
  rewrite map_nth, bit_of_byte_of_bit, nth_firstn, nth_skipn.
  destruct (Nat.ltb_spec j (party_size cd p)); [reflexivity | lia].
Qed.

Lemma parties_selected (k : nat) :
  forall p, p + k = length (partyInputs cd) ->
    select_parties c x (bytes_of_blocks (both_keys R k0s)) (seq p k)
    = Returned (bytes_of_blocks
                  (map (chosen_key R k0s x)
                     (seq (party_start cd p)
                          (length (inputWires cd) - party_start cd p)))).
Proof.
  induction k as [|k IH]; intros p Hp.
  - rewrite Nat.add_0_r in Hp. subst p.
    now rewrite party_start_all, Nat.sub_diag.
  - cbn [seq select_parties]. fold cd.
    rewrite party_selected by lia. cbn [bind].
    rewrite IH by lia. cbn [bind]. f_equal.
    pose proof (@party_start_succ cd p ltac:(lia)) as Hs.
    pose proof (party_start_le cd (S p)) as Hle.
    replace (length (inputWires cd) - party_start cd p)
      with (party_size cd p + (length (inputWires cd) - party_start cd (S p)))
      by lia.
    rewrite seq_app, map_app, <- Hs.
    unfold bytes_of_blocks. now rewrite flat_map_app.
Qed.

(** Selecting party by party gives, in input-wire order, the key that
    stands for each bit of [x]. *)
Lemma garble_inputs_selected :
  garble_inputs c x (bytes_of_blocks (both_keys R k0s))
  = Returned (bytes_of_blocks (zip_with (key_for R) k0s x)).
Proof.
  unfold garble_inputs. fold cd.
  rewrite parties_selected by lia.
  unfold party_start. cbn [firstn concat length]. rewrite Nat.sub_0_r.
  rewrite (zip_with_nth (key_for R) k0s x 0%N false) by lia.
  now rewrite k0s_length.
Qed.

End Selection.

(** ** Garble, compute, translate *)

Lemma read_blocks (ks : list block) :
  map (block_at (bytes_of_blocks ks)) (seq 0 (length ks)) = map trunc ks.
Proof.
  rewrite <- (map_seq_nth trunc ks 0%N).
  apply map_ext_in. intros i Hi. apply in_seq in Hi.
  apply block_at_blocks. lia.
Qed.

Lemma trunc_key_for (R k : block) (b : bool) :
  trunc R = R -> trunc k = k -> trunc (key_for R k b) = key_for R k b.
Proof.
  intros HR Hk. destruct b; simpl; [| exact Hk].
  now rewrite trunc_lxor, HR, Hk.
Qed.

Lemma trunc_chosen_keys (R : block) (k0s : list block) (x : list bool) :
  trunc R = R -> Forall (fun k => trunc k = k) k0s ->
  map trunc (zip_with (key_for R) k0s x) = zip_with (key_for R) k0s x.
Proof.
  intros HR H. revert x. induction H as [|k ks Hk _ IH]; intros [|b x];
    try reflexivity.
  cbn [zip_with map]. now rewrite IH, trunc_key_for.
Qed.

Lemma compute_reads_keys (prf : nat -> list block -> block)
    (cd : CircuitDescription) (rows : list block) (tt : list byte)
    (ks : list block) :
  length ks = length (inputWires cd) ->
  compute prf (mkCircuit (mkNative cd rows tt) (bytes_of_blocks ks))
  = Returned
      (bytes_of_blocks
         (map (eval_gates prf
                 (set_wires (fun _ => 0%N) (inputWires cd) (map trunc ks))
                 rows (gates cd))
              (outputWires cd))).
Proof.
  intros Hlen. unfold compute.
  cbn [garbledCircuitPtr description garbledInputs garbledTables].
  rewrite length_bytes_of_blocks, Hlen, Nat.eqb_refl.
  now rewrite <- Hlen, read_blocks.
Qed.

Lemma translate_keys (cd : CircuitDescription) (rows : list block)
    (stored : list byte) (gk m : wire -> block) :
  translate
    (mkCircuit
       (mkNative cd rows
          (map (fun k => byte_of_bit (signal k)) (map gk (outputWires cd))))
       stored)
    (bytes_of_blocks (map m (outputWires cd)))
  = map (fun w => byte_of_bit (xorb (signal (m w)) (signal (gk w))))
        (outputWires cd).
Proof.
  unfold translate, getTranslationTable, getTranslationTableSize,
    native_getNumberOfOutputs.
  cbn [garbledCircuitPtr description translationTable].
  generalize (outputWires cd) as outs. intros outs.
  rewrite <- (map_seq_nth
                (fun w => byte_of_bit (xorb (signal (m w)) (signal (gk w))))
                outs 0).
  apply map_ext_in. intros i Hi. apply in_seq in Hi.
  rewrite block_at_blocks by (rewrite length_map; lia).
  rewrite signal_trunc, map_map.
  rewrite (nth_map_indep m outs 0 0%N) by lia.
  rewrite (nth_map_indep (fun w => byte_of_bit (signal (gk w))) outs 0 Byte.x00)
    by lia.
  now rewrite bit_of_byte_of_bit.
Qed.

Lemma trunc_xor_all (ks : list block) :
  Forall (fun k => trunc k = k) ks -> trunc (xor_all ks) = xor_all ks.
Proof.
  induction 1 as [|k ks Hk _ IH]; [reflexivity |].
  cbn [xor_all fold_right]. fold (xor_all ks). now rewrite trunc_lxor, Hk, IH.
Qed.

Lemma all_blocks_upd (gk : wire -> block) (o : wire) (k : block) :
  all_blocks gk -> trunc k = k -> all_blocks (upd gk o k).
Proof.
  intros H Hk w. unfold upd. destruct (Nat.eqb w o); [exact Hk | apply H].
Qed.

Lemma all_blocks_set_wires (ws : list wire) :
  forall (ks : list block) (gk : wire -> block),
    Forall (fun k => trunc k = k) ks -> all_blocks gk ->
    all_blocks (set_wires gk ws ks).
Proof.
  induction ws as [|w ws IH]; intros ks gk Hks Hgk; [now destruct ks |].
  destruct Hks as [|k ks Hk Hks]; [exact Hgk |].
  cbn [set_wires]. apply IH; [exact Hks | now apply all_blocks_upd].
Qed.

Lemma all_blocks_garble_gate (prf : nat -> list block -> block) (R : block)
    (gk : wire -> block) (g : Gate) :
  all_blocks gk -> all_blocks (fst (garble_gate prf R gk g)).
Proof.
  intros H. unfold garble_gate.
  destruct (gateType g); cbn [fst]; apply all_blocks_upd; try exact H;
    try apply trunc_idem.
  apply trunc_xor_all. apply Forall_forall. intros k Hk.
  apply in_map_iff in Hk. destruct Hk as (w & <- & _). apply H.
Qed.

Lemma all_blocks_garble_gates (prf : nat -> list block -> block) (R : block)
    (gs : list Gate) :
  forall gk, all_blocks gk -> all_blocks (fst (garble_gates prf R gk gs)).
Proof.
  induction gs as [|g gs IH]; intros gk H; [exact H |].
  cbn [garble_gates].
  pose proof (all_blocks_garble_gate prf R g H) as H1.
  destruct (garble_gate prf R gk g) as [gk1 rows]. cbn [fst] in H1.
  specialize (IH gk1 H1).
  destruct (garble_gates prf R gk1 gs) as [gk2 rest]. exact IH.
Qed.

Section Protocol.

Variable prg : list byte -> nat -> block.
Variable prf : nat -> list block -> block.

Lemma offset_signal (seed : list byte) : signal (offset_of_seed prg seed) = true.
Proof.
  unfold offset_of_seed, signal. rewrite <- N.bit0_odd, N.lor_spec.
  apply orb_true_r.
Qed.

Lemma offset_trunc (seed : list byte) :
  trunc (offset_of_seed prg seed) = offset_of_seed prg seed.
Proof.
  unfold offset_of_seed. unfold trunc at 1.
  rewrite N.land_lor_distr_l. fold (trunc (trunc (prg seed 0))).
  now rewrite trunc_idem.
Qed.

Lemma length_input_key0s (seed : list byte) (n : nat) :
  length (input_key0s prg seed n) = n.
Proof. unfold input_key0s. now rewrite length_map, length_seq. Qed.

Lemma input_key0s_trunc (seed : list byte) (n : nat) :
  Forall (fun k => trunc k = k) (input_key0s prg seed n).
Proof.
  unfold input_key0s. apply Forall_forall. intros k Hk.
  apply in_map_iff in Hk. destruct Hk as (i & <- & _). apply trunc_idem.
Qed.

(** C2. Round trip.  For every circuit description, valid seed and
    assignment [x] of plaintext bits to all input wires: garbling, then
    selecting party by party the input keys of [x], storing them, running
    [compute] and translating its output keys returns exactly the bits of
    the direct plaintext evaluation of the circuit on [x].  Gates of all
    four types, with any number of inputs, are covered, and so is every
    choice of generator and pseudorandom function. *)
Theorem round_trip_correct :
  forall (c : ScNativeGarbledBooleanCircuitNoFixedKey) (seed : list byte)
         (x : list bool),
    length seed = SCAPI_NATIVE_KEY_SIZE ->
    length x = length (inputWires (description (garbledCircuitPtr c))) ->
    round_trip prg prf c seed x
    = Returned (map byte_of_bit (plain_eval (description (garbledCircuitPtr c)) x)).
Proof.
  intros c seed x Hseed Hx. unfold round_trip, garble.
  rewrite Hseed, Nat.eqb_refl.
  set (cd := description (garbledCircuitPtr c)) in *.
  set (R := offset_of_seed prg seed).
  set (in0 := input_key0s prg seed (length (inputWires cd))).
  assert (Hin0 : length in0 = length (inputWires cd))
    by apply length_input_key0s.
  assert (Hstart : keys_agree R
            (set_wires (fun _ => 0%N) (inputWires cd) in0)
            (set_wires (fun _ => 0%N) (inputWires cd) (zip_with (key_for R) in0 x))
            (set_wires (fun _ => false) (inputWires cd) x)).
  { apply keys_agree_set_wires; [lia | intros w; reflexivity]. }
  pose proof (gates_correct prf (offset_signal seed) (gates cd) Hstart) as Hend.
  fold R in Hend.
  destruct (garble_gates prf R (set_wires (fun _ => 0%N) (inputWires cd) in0)
              (gates cd)) as [gk rows].
  cbn [fst snd] in Hend. cbn [bind fst snd getAllInputWireValues].
  rewrite garble_inputs_selected by (cbn [garbledCircuitPtr description]; lia).
  cbn [bind]. unfold setInputs. cbn [bind garbledCircuitPtr].
  rewrite compute_reads_keys
    by (rewrite length_zip_with; lia).
  cbn [bind]. rewrite translate_keys. f_equal.
  rewrite trunc_chosen_keys
    by (apply offset_trunc || apply input_key0s_trunc).
  unfold plain_eval. fold cd. rewrite map_map.
  apply map_ext. intros w. f_equal.
  rewrite (Hend w), signal_key_for by apply offset_signal.
  now destruct (signal (gk w)), (fold_left plain_gate (gates cd) _ w).
Qed.

Lemma pair_at_both_keys (R : block) (k0s : list block) (i : nat) :
  trunc R = R -> i < length k0s ->
  pair_at (bytes_of_blocks (both_keys R k0s)) i
  = (trunc (nth i k0s 0%N), N.lxor (trunc (nth i k0s 0%N)) R).
Proof.
  intros HR Hi. unfold pair_at.
  rewrite !block_at_blocks by (rewrite length_both_keys; lia).
  pose proof (nth_both_keys R k0s false Hi) as H0.
  pose proof (nth_both_keys R k0s true Hi) as H1.
  rewrite Nat.add_0_r in H0. rewrite H0, H1. cbn [key_for].
  now rewrite trunc_lxor, HR.
Qed.

(** [compute()] returns the keys that [computed_wires] holds on the
    output wires, and plain evaluation the values that [plain_wires]
    holds there. *)
Lemma compute_computed_wires (c : ScNativeGarbledBooleanCircuitNoFixedKey) :
  compute prf c
  = if Nat.eqb (length (garbledInputs c))
         (SCAPI_NATIVE_KEY_SIZE
          * length (inputWires (description (garbledCircuitPtr c))))
    then Returned
           (bytes_of_blocks
              (map (computed_wires prf c)
                   (outputWires (description (garbledCircuitPtr c)))))
    else Thrown NotAllInputsSet.
Proof. reflexivity. Qed.

Lemma plain_eval_plain_wires (cd : CircuitDescription) (x : list bool) :
  plain_eval cd x = map (plain_wires cd x) (outputWires cd).
Proof. reflexivity. Qed.

Lemma computed_wires_reads_keys (cd : CircuitDescription) (rows : list block)
    (tt : list byte) (ks : list block) :
  length ks = length (inputWires cd) ->
  computed_wires prf (mkCircuit (mkNative cd rows tt) (bytes_of_blocks ks))
  = eval_gates prf (set_wires (fun _ => 0%N) (inputWires cd) (map trunc ks))
      rows (gates cd).
Proof.
  intros Hlen. unfold computed_wires.
  cbn [garbledCircuitPtr description garbledInputs garbledTables].
  now rewrite <- Hlen, read_blocks.
Qed.

(** C4. Free-XOR invariant.  A garbling fixes one offset [R], a 128-bit
    value with least significant bit 1, and a first key [key0 w] for
    every wire [w], inner wires included, such that on every assignment
    of the input wires the key that evaluation holds on [w] is [key0 w]
    when the plaintext value of [w] is 0 and [key0 w XOR R] when it is
    1: the two keys of every wire differ by [R], and so carry opposite
    signal bits.  The returned buffers hold pairs that differ by [R] for
    every input wire, and for every output wire exactly the two keys of
    that wire. *)
Theorem garble_free_xor :
  forall (c : ScNativeGarbledBooleanCircuitNoFixedKey) (seed : list byte),
    length seed = SCAPI_NATIVE_KEY_SIZE ->
    let cd := description (garbledCircuitPtr c) in
    exists c1 vals allIn allOut (R : block) (key0 : wire -> block),
      garble prg prf c seed = Returned (c1, vals) /\
      getAllInputWireValues vals = Buf allIn /\
      getAllOutputWireValues vals = Buf allOut /\
      (R < 2 ^ KEY_BITS)%N /\ signal R = true /\
      (forall x, length x = length (inputWires cd) ->
         exists ks c2,
           garble_inputs c1 x allIn = Returned ks /\
           setInputs c1 ks = Returned c2 /\
           forall w,
             computed_wires prf c2 w
             = if plain_wires cd x w then N.lxor (key0 w) R else key0 w) /\
      (forall w,
         (key0 w < 2 ^ KEY_BITS)%N /\
         signal (N.lxor (key0 w) R) = negb (signal (key0 w))) /\
      (forall i, i < length (inputWires cd) ->
         snd (pair_at allIn i) = N.lxor (fst (pair_at allIn i)) R /\
         signal (snd (pair_at allIn i)) = negb (signal (fst (pair_at allIn i)))) /\
      (forall i, i < length (outputWires cd) ->
         pair_at allOut i
         = (key0 (nth i (outputWires cd) 0),
            N.lxor (key0 (nth i (outputWires cd) 0)) R)).
Proof.
  intros c seed Hseed cd. unfold garble. rewrite Hseed, Nat.eqb_refl.
  fold cd. set (R := offset_of_seed prg seed).
  set (in0 := input_key0s prg seed (length (inputWires cd))).
  pose proof (offset_trunc seed) as HR. fold R in HR.
  pose proof (offset_signal seed) as Hsig. fold R in Hsig.
  assert (Hin0 : length in0 = length (inputWires cd))
    by apply length_input_key0s.
  assert (Hblocks : all_blocks
            (fst (garble_gates prf R
                    (set_wires (fun _ => 0%N) (inputWires cd) in0) (gates cd)))).
  { apply all_blocks_garble_gates, all_blocks_set_wires.
    - apply input_key0s_trunc.
    - intros w. reflexivity. }
  assert (Hsem : forall x, length x = length (inputWires cd) ->
            keys_agree R
              (fst (garble_gates prf R
                      (set_wires (fun _ => 0%N) (inputWires cd) in0) (gates cd)))
              (eval_gates prf
                 (set_wires (fun _ => 0%N) (inputWires cd)
                    (zip_with (key_for R) in0 x))
                 (snd (garble_gates prf R
                         (set_wires (fun _ => 0%N) (inputWires cd) in0)
                         (gates cd)))
                 (gates cd))
              (plain_wires cd x)).
  { intros x Hx. apply (gates_correct prf Hsig).
    apply keys_agree_set_wires; [lia | intros w; reflexivity]. }
  destruct (garble_gates prf R _ _) as [gk rows]. cbn [fst snd] in *.
  exists (mkCircuit (mkNative cd rows
            (map (fun k => byte_of_bit (signal k)) (map gk (outputWires cd))))
            (garbledInputs c)).
  eexists. do 2 eexists. exists R, gk.
  split; [reflexivity |]. cbn [getAllInputWireValues getAllOutputWireValues].
  split; [reflexivity |]. split; [reflexivity |].
  assert (Hbound : forall k, trunc k = k -> (k < 2 ^ KEY_BITS)%N).
  { intros k Hk. rewrite <- Hk, trunc_mod. apply N.mod_upper_bound.
    unfold KEY_BITS. discriminate. }
  assert (Hopp : forall k, signal (N.lxor k R) = negb (signal k)).
  { intros k. rewrite signal_lxor, Hsig. apply xorb_true_r. }
  split; [apply Hbound, HR |]. split; [exact Hsig |].
  split.
  { intros x Hx. do 2 eexists.
    split; [apply garble_inputs_selected;
            cbn [garbledCircuitPtr description]; lia |].
    split; [reflexivity |].
    intros w. cbn [garbledCircuitPtr].
    rewrite computed_wires_reads_keys by (rewrite length_zip_with; lia).
    rewrite trunc_chosen_keys by (exact HR || apply input_key0s_trunc).
    apply (Hsem x Hx w). }
  split; [intros w; split; [apply Hbound, Hblocks | apply Hopp] |].
  split; intros i Hi.
  - rewrite pair_at_both_keys by (rewrite ?Hin0; assumption).
    cbn [fst snd]. split; [reflexivity | apply Hopp].
  - rewrite pair_at_both_keys by (rewrite ?length_map; assumption).
    rewrite (nth_map_indep gk (outputWires cd) 0 0%N) by assumption.
    now rewrite Hblocks.
Qed.

End Protocol.

(** ** The model at work on the toy circuit *)

Lemma round_trip_correct_witness :
  round_trip toy_prg toy_prf toy_circuit toy_seed [true; true; false]
  = Returned [Byte.x01; Byte.x01].
Proof.
  exact (round_trip_correct toy_prg toy_prf toy_circuit toy_seed
           [true; true; false] eq_refl eq_refl).
Defined.

Lemma garble_free_xor_witness :
  exists c1 vals allIn allOut (R : block) (key0 : wire -> block),
    garble toy_prg toy_prf toy_circuit toy_seed = Returned (c1, vals) /\
    getAllInputWireValues vals = Buf allIn /\
    getAllOutputWireValues vals = Buf allOut /\
    (R < 2 ^ KEY_BITS)%N /\ signal R = true /\
    (forall x, length x = 3 ->
       exists ks c2,
         garble_inputs c1 x allIn = Returned ks /\
         setInputs c1 ks = Returned c2 /\
         forall w,
           computed_wires toy_prf c2 w
           = if plain_wires toy_description x w
             then N.lxor (key0 w) R else key0 w) /\
    (forall w,
       (key0 w < 2 ^ KEY_BITS)%N /\
       signal (N.lxor (key0 w) R) = negb (signal (key0 w))) /\
    (forall i, i < 3 ->
       snd (pair_at allIn i) = N.lxor (fst (pair_at allIn i)) R /\
       signal (snd (pair_at allIn i)) = negb (signal (fst (pair_at allIn i)))) /\
    (forall i, i < 2 ->
       pair_at allOut i
       = (key0 (nth i [4; 6] 0), N.lxor (key0 (nth i [4; 6] 0)) R)).
Proof.
  exact (garble_free_xor toy_prg toy_prf toy_circuit toy_seed eq_refl).
Defined.

(** Layout and truth table of the one-gate AND circuit: 64 bytes of
    input keys, 32 bytes of output keys, a one-entry translation table. *)
Example and_circuit_layout :
  (exists c1 allIn allOut tt,
      garble toy_prg toy_prf and_circuit toy_seed
      = Returned (c1, mkValues (Buf allIn) (Buf allOut) (Buf tt)) /\
      length allIn = 64 /\ length allOut = 32 /\ length tt = 1) /\
  round_trip toy_prg toy_prf and_circuit toy_seed [true; true]
  = Returned [Byte.x01] /\
  round_trip toy_prg toy_prf and_circuit toy_seed [true; false]
  = Returned [Byte.x00] /\
  round_trip toy_prg toy_prf and_circuit toy_seed [false; true]
  = Returned [Byte.x00] /\
  round_trip toy_prg toy_prf and_circuit toy_seed [false; false]
  = Returned [Byte.x00].
Proof.
  split; [| repeat split; vm_compute; reflexivity].
  vm_compute. do 4 eexists. repeat split.
Qed.

(** The per-party operations modelled from the specification refuse a
    party number outside [1, numberOfParties]. *)
Lemma modelled_queries_NoSuchParty :
  forall (c : ScNativeGarbledBooleanCircuitNoFixedKey) (partyNumber : int)
         (bits allInputWireValues : list byte),
    (partyNumber < 1 \/ getNumberOfParties c < partyNumber)%Z ->
    getInputWireIndices c partyNumber = Thrown NoSuchParty /\
    getGarbledInputFromUngarbledInput c bits allInputWireValues partyNumber
    = Thrown NoSuchParty.
Proof.
  intros c p bits allIn Hp.
  unfold getInputWireIndices, getGarbledInputFromUngarbledInput.
  replace ((1 <=? p)%Z && (p <=? getNumberOfParties c)%Z) with false;
    [split; reflexivity |].
  symmetry. apply andb_false_iff.
  destruct Hp; [left | right]; apply Z.leb_gt; assumption.
Qed.

(** ** Replacing the translation table *)

Lemma firstn_prefix_length (n : nat) (t : list byte) :
  n <= length t -> length (firstn n t) = n.
Proof. intros H. rewrite length_firstn. lia. Qed.

Ltac open_circuit c :=
  destruct c as [[d g tt] gi];
  unfold setTranslationTable, getTranslationTable, getTranslationTableSize,
    native_getNumberOfOutputs in *;
  cbn [garbledCircuitPtr description translationTable garbledTables
       garbledInputs] in *;
  set (n := length (outputWires d)) in *.

Lemma setTranslationTable_separate :
  forall (c : ScNativeGarbledBooleanCircuitNoFixedKey) (t : list byte),
    let n := getTranslationTableSize c in
    ((exists c', setTranslationTable c t = Returned c') <->
     n <= length t /\ n <= length (getTranslationTable c)) /\
    (forall c',
        setTranslationTable c t = Returned c' ->
        getTranslationTable c'
        = firstn n t ++ skipn n (getTranslationTable c) /\
        firstn n (getTranslationTable c') = firstn n t /\
        length (getTranslationTable c') = length (getTranslationTable c)).
Proof.
  intros c t. open_circuit c. cbv zeta.
  destruct (Nat.leb_spec n (length t)) as [Ht | Ht];
    destruct (Nat.leb_spec n (length tt)) as [Ho | Ho]; cbn [andb].
  1:{ split.
      - split; [intros _; split; assumption | intros _; eexists; reflexivity].
      - intros c' H. injection H as <-.
        cbn [garbledCircuitPtr description translationTable garbledTables
             garbledInputs].
        split; [reflexivity |]. split.
        + rewrite firstn_app, firstn_prefix_length by assumption.
          rewrite Nat.sub_diag, firstn_O, app_nil_r, firstn_firstn.
          now rewrite Nat.min_id.
        + rewrite length_app, firstn_prefix_length, length_skipn by assumption.
          lia. }
  all: split;
    [ split; [intros [c' H]; discriminate H | intros [? ?]; lia]
    | intros c' H; discriminate H ].
Qed.

(** X1. [setTranslationTable] never throws.  It returns normally exactly
    when the [getNumberOfOutputs()] bytes it reads lie inside the
    argument's buffer, the bytes it writes lie inside the stored table,
    and the two ranges do not overlap: an argument that points into the
    first [getNumberOfOutputs()] bytes of the stored table, such as the
    pointer [getTranslationTable()] returns, is undefined unless no byte
    is copied.  The table it leaves starts with the bytes read, keeps
    whatever the stored buffer held beyond them and keeps its length;
    the description, the garbled tables and the stored inputs are
    untouched. *)
Theorem setTranslationTable_effect :
  forall (c : ScNativeGarbledBooleanCircuitNoFixedKey) (p : table_arg),
    let n := getTranslationTableSize c in
    (forall e, setTranslationTable_at c p <> Thrown e) /\
    ((exists c', setTranslationTable_at c p = Returned c') <->
     n <= length (arg_bytes c p) /\
     n <= length (getTranslationTable c) /\
     match p with
     | Elsewhere _ => True
     | Within offset =>
         offset <= length (getTranslationTable c) /\ (n = 0 \/ n <= offset)
     end) /\
    (forall c',
        setTranslationTable_at c p = Returned c' ->
        getTranslationTable c'
        = firstn n (arg_bytes c p) ++ skipn n (getTranslationTable c) /\
        firstn n (getTranslationTable c') = firstn n (arg_bytes c p) /\
        length (getTranslationTable c') = length (getTranslationTable c) /\
        getTranslationTableSize c' = n /\
        description (garbledCircuitPtr c') = description (garbledCircuitPtr c) /\
        garbledTables (garbledCircuitPtr c') = garbledTables (garbledCircuitPtr c) /\
        garbledInputs c' = garbledInputs c).
Proof.
  intros c [t | offset].
  - cbn [setTranslationTable_at arg_bytes].
    destruct (setTranslationTable_separate c t) as [Hdef Heff].
    split; [| split].
    + intros e. unfold setTranslationTable. destruct (_ && _); discriminate.
    + rewrite Hdef. tauto.
    + intros c' H. destruct (Heff c' H) as (H1 & H2 & H3).
      split; [exact H1 |]. split; [exact H2 |]. split; [exact H3 |].
      revert H. unfold setTranslationTable. destruct (_ && _); [| discriminate].
      intros H. injection H as <-. repeat split.
  - unfold setTranslationTable_at, arg_bytes. open_circuit c. cbv zeta.
    assert (Hpre : forall k, k <= length tt - offset ->
              length (firstn k (skipn offset tt)) = k).
    { intros k Hk. rewrite length_firstn, length_skipn. lia. }
    destruct (Nat.eqb_spec n 0) as [Hn | Hn];
      destruct (Nat.leb_spec n offset) as [Hno | Hno];
      destruct (Nat.leb_spec (offset + n) (length tt)) as [Hb | Hb];
      cbn [orb andb];
      (split; [discriminate |]); rewrite ?length_skipn;
      (split;
       [ split; [intros [c' H]; try discriminate H; lia
                | intros H; try (eexists; reflexivity); lia]
       | intros c' H; try discriminate H ]).
    all: injection H as <-;
      cbn [garbledCircuitPtr description translationTable garbledTables
           garbledInputs];
      (split; [reflexivity |]); split;
      [ rewrite firstn_app, Hpre by lia;
        rewrite Nat.sub_diag, firstn_O, app_nil_r, firstn_firstn;
        now rewrite Nat.min_id
      | split; [| repeat split];
        rewrite length_app, Hpre, length_skipn by lia; lia ].
Qed.


(** X3. The last write wins: after one [setTranslationTable] a second
    one behaves as if the first had never happened. *)
Theorem setTranslationTable_last_wins :
  forall (c c1 : ScNativeGarbledBooleanCircuitNoFixedKey) (t1 t2 : list byte),
    setTranslationTable c t1 = Returned c1 ->
    setTranslationTable c1 t2 = setTranslationTable c t2.
Proof.
  intros c c1 t1 t2 H1. open_circuit c.
  destruct (Nat.leb_spec n (length t1)) as [Ht | Ht]; [| discriminate H1].
  destruct (Nat.leb_spec n (length tt)) as [Ho | Ho]; [| discriminate H1].
  cbn [andb] in H1. injection H1 as <-.
  cbn [garbledCircuitPtr description translationTable garbledTables
       garbledInputs]. fold n.
  rewrite length_app, firstn_prefix_length, length_skipn by assumption.
  replace (n + (length tt - n)) with (length tt) by lia.
  rewrite skipn_app, firstn_prefix_length by assumption.
  rewrite skipn_all2 by (rewrite firstn_prefix_length by assumption; lia).
  rewrite Nat.sub_diag. cbn [app skipn].
  destruct (Nat.leb_spec n (length tt)); [reflexivity | lia].
Qed.

(** X4. Writing, from a buffer elsewhere, bytes that the stored table
    already starts with changes nothing: the circuit is returned as it
    was.  Passing the stored table itself, or any pointer into its first
    [getNumberOfOutputs()] bytes, is an overlapping copy and undefined
    as soon as one byte is copied. *)
Theorem setTranslationTable_same_bytes :
  forall (c : ScNativeGarbledBooleanCircuitNoFixedKey),
    (forall t : list byte,
        getTranslationTableSize c <= length t ->
        firstn (getTranslationTableSize c) t
        = firstn (getTranslationTableSize c) (getTranslationTable c) ->
        setTranslationTable_at c (Elsewhere t) = Returned c) /\
    (forall offset : nat,
        offset < getTranslationTableSize c ->
        setTranslationTable_at c (Within offset) = Undefined).
Proof.
  intros c. split.
  - intros t Ht H. cbn [setTranslationTable_at]. open_circuit c.
    assert (Ho : n <= length tt).
    { pose proof (f_equal (@length byte) H) as Hl.
      rewrite !length_firstn in Hl. lia. }
    destruct (Nat.leb_spec n (length t)); [| lia].
    destruct (Nat.leb_spec n (length tt)); [| lia].
    cbn [andb]. now rewrite H, firstn_skipn.
  - intros offset Hoff. unfold setTranslationTable_at. open_circuit c.
    destruct (Nat.eqb_spec n 0); [lia |].
    destruct (Nat.leb_spec n offset); [lia |]. reflexivity.
Qed.

(** X5. Storing the inputs and replacing the translation table do not
    interfere: in either order they leave the same circuit, and the pair
    fails in one order exactly when it fails in the other. *)
Theorem setInputs_setTranslationTable_commute :
  forall (c : ScNativeGarbledBooleanCircuitNoFixedKey) (inputs t : list byte),
    (c1 <- setInputs c inputs ;; setTranslationTable c1 t)
    = (c2 <- setTranslationTable c t ;; setInputs c2 inputs).
Proof.
  intros c inputs t. unfold setInputs, setTranslationTable.
  cbn [bind garbledCircuitPtr].
  destruct (_ && _); reflexivity.
Qed.

(** ** Party numbers and holder indices *)

(** X6. Party numbers are one-based.  For a party number in
    [1, numberOfParties], [getNumberOfInputs] returns the number of input
    wires of that party, the first party being number 1; for every other
    party number the read is out of bounds. *)
Theorem getNumberOfInputs_in_range :
  forall (c : ScNativeGarbledBooleanCircuitNoFixedKey) (partyNumber : int),
    ((1 <= partyNumber <= getNumberOfParties c)%Z ->
     getNumberOfInputs c partyNumber
     = Returned
         (Z.of_nat
            (length (nth (Z.to_nat (partyNumber - 1))
                         (partyInputs (description (garbledCircuitPtr c))) [])))) /\
    (~ (1 <= partyNumber <= getNumberOfParties c)%Z ->
     getNumberOfInputs c partyNumber = Undefined).
Proof.
  intros c p.
  unfold getNumberOfInputs, getNumberOfParties, int_array_read,
    native_getNumOfInputsForEachParty, native_getNumberOfParties.
  rewrite length_map.
  set (l := partyInputs (description (garbledCircuitPtr c))).
  destruct (Z.leb_spec 0 (p - 1)) as [H0 | H0];
    destruct (Z.ltb_spec (p - 1) (Z.of_nat (length l))) as [H1 | H1];
    cbn [andb]; split; intros H; try lia; try reflexivity.
  f_equal.
  apply (nth_map_indep (fun ws : list wire => Z.of_nat (length ws)) l [] 0%Z).
  lia.
Qed.

(** X7. A holder remembers only the last update: after any non-empty run
    of [setGarbledTables] calls it equals a holder constructed from the
    last pair, so [getArraySize(0)] is the size given last. *)
Theorem holder_updates_last :
  forall (us : list (byte_ptr * int)) (h : JustGarbledGarbledTablesHolder)
         (d : byte_ptr * int),
    us <> [] ->
    holder_updates h us = newHolder (fst (last us d)) (snd (last us d)) /\
    getArraySize (holder_updates h us) 0%Z = Returned (snd (last us d)).
Proof.
  intros us h d Hne.
  assert (H : holder_updates h us = newHolder (fst (last us d)) (snd (last us d))).
  { revert h. induction us as [|u us IH]; intros h; [contradiction |].
    unfold holder_updates in *. cbn [fold_left].
    destruct us as [|u' us]; [reflexivity |].
    rewrite IH by discriminate. reflexivity. }
  split; [exact H | now rewrite H].
Qed.

(** X8. [getArraySize] accepts exactly the indices of the array that
    [toDoubleByteArray()] returns: it returns a size for an index inside
    that one-element array and throws the invalid-argument condition for
    every index outside it. *)
Theorem getArraySize_indices :
  forall (h : JustGarbledGarbledTablesHolder) (i : int),
    ((exists s, getArraySize h i = Returned s) <->
     (0 <= i < Z.of_nat (length (toDoubleByteArray h)))%Z) /\
    (getArraySize h i = Thrown InvalidArgument <->
     ~ (0 <= i < Z.of_nat (length (toDoubleByteArray h)))%Z).
Proof.
  intros h i. unfold getArraySize, toDoubleByteArray. cbn [length].
  destruct (Z.eqb_spec i 0) as [-> | Hi]; split; split;
    try discriminate; try lia; intros H.
  - eexists. reflexivity.
  - destruct H as [s H]. discriminate H.
  - reflexivity.
Qed.

(** ** The further operations at work *)

Lemma setTranslationTable_effect_witness :
  (exists c',
      setTranslationTable_at toy_used_circuit
        (Elsewhere [Byte.x00; Byte.x01; Byte.xff])
      = Returned c' /\
      getTranslationTable c' = [Byte.x00; Byte.x01] /\
      garbledInputs c' = [Byte.x07]) /\
  ~ (exists c', setTranslationTable_at toy_used_circuit (Within 0) = Returned c').
Proof.
  split.
  - eexists. split; [reflexivity |].
    destruct (setTranslationTable_effect toy_used_circuit
                (Elsewhere [Byte.x00; Byte.x01; Byte.xff])) as (_ & _ & H).
    destruct (H _ eq_refl) as (Htt & _ & _ & _ & _ & _ & Hin).
    split; [exact Htt | exact Hin].
  - destruct (setTranslationTable_effect toy_used_circuit (Within 0))
      as (_ & Hdef & _).
    intros H. apply Hdef in H. destruct H as (_ & _ & _ & [H | H]).
    + discriminate H.
    + vm_compute in H. lia.
Defined.


Lemma setTranslationTable_last_wins_witness :
  exists c1,
    setTranslationTable toy_used_circuit [Byte.x00; Byte.x00] = Returned c1 /\
    setTranslationTable c1 [Byte.x01; Byte.x01]
    = setTranslationTable toy_used_circuit [Byte.x01; Byte.x01].
Proof.
  eexists. split; [reflexivity |].
  apply (setTranslationTable_last_wins toy_used_circuit
           [Byte.x00; Byte.x00] [Byte.x01; Byte.x01]).
  reflexivity.
Defined.

Lemma setTranslationTable_same_bytes_witness :
  setTranslationTable_at toy_used_circuit
    (Elsewhere [Byte.x01; Byte.x00; Byte.x2a])
  = Returned toy_used_circuit /\
  setTranslationTable_at toy_used_circuit (Within 0) = Undefined /\
  setTranslationTable_at toy_used_circuit (Within 1) = Undefined.
Proof.
  destruct (setTranslationTable_same_bytes toy_used_circuit) as [Hsame Hover].
  split; [| split].
  - apply Hsame; [vm_compute; lia | reflexivity].
  - apply Hover. vm_compute. lia.
  - apply Hover. vm_compute. lia.
Defined.

Lemma getNumberOfInputs_in_range_witness :
  getNumberOfInputs toy_circuit 1%Z = Returned 1%Z /\
  getNumberOfInputs toy_circuit (-1)%Z = Undefined.
Proof.
  pose proof (getNumberOfInputs_in_range toy_circuit 1%Z) as [Hin _].
  pose proof (getNumberOfInputs_in_range toy_circuit (-1)%Z) as [_ Hout].
  split.
  - apply Hin. vm_compute. split; discriminate.
  - apply Hout. vm_compute. intros [H _]. apply H. reflexivity.
Defined.

Lemma holder_updates_last_witness :
  holder_updates (newHolder NULL 0%Z)
    [(Buf [Byte.x01], 1%Z); (NULL, 7%Z); (Buf [Byte.x02; Byte.x03], 2%Z)]
  = newHolder (Buf [Byte.x02; Byte.x03]) 2%Z /\
  getArraySize
    (holder_updates (newHolder NULL 0%Z)
       [(Buf [Byte.x01], 1%Z); (NULL, 7%Z); (Buf [Byte.x02; Byte.x03], 2%Z)])
    0%Z
  = Returned 2%Z.
Proof.
  apply (@holder_updates_last
           [(Buf [Byte.x01], 1%Z); (NULL, 7%Z); (Buf [Byte.x02; Byte.x03], 2%Z)]
           (newHolder NULL 0%Z) (NULL, 0%Z)).
  discriminate.
Defined.
